(** * type_safe::deferred_construction<T>

    A shallow embedding of [include/type_safe/deferred_construction.hpp]:
    the class template that reserves raw storage for one [T] and
    constructs it later, exactly once.

    Objects live in a store indexed by addresses, every member function
    is a computation over that store taking [this] explicitly, and the
    calls the class makes into [T] (constructors, destructor) are
    recorded in a trace, the way a construction-counting test type
    would record them. *)

From Stdlib Require Import ZArith String.
From stdpp Require Import base option list gmap.

(** ** The value type

    What the template needs of [T]: the constructor chosen for an
    argument pack, the copy constructor and the move constructor.  Each
    of them either completes with an object or exits with an exception.
    The move constructor also says in which (moved-from) state it leaves
    its argument. *)
Class ValueType (T : Type) := {
  args : Type;                          (* packs Args&&... some constructor accepts *)
  conv : Type;                          (* the U of operator=(U&&): T constructible from U *)
  exn : Type;                           (* what the constructors may throw *)
  forward_one : conv -> args;           (* std::forward<U>(u), a pack of one *)
  construct : args -> exn + T;          (* value_type(std::forward<Args>(args)...) *)
  copy_construct : T -> exn + T;        (* value_type(const value_type&) *)
  move_construct : T -> (exn + T) * T   (* value_type(value_type&&), and the source afterwards *)
}.

Section Cell.

Context {T : Type} `{VT : ValueType T}.

(** The build: [true] when assertions are compiled in. *)
Variable checked : bool.

(** ** Data *)

(** The two data members.  [storage_] is raw, suitably aligned memory:
    [None] while no [T] lives in it, [Some v] once a [T] of value [v]
    has been constructed there. *)
Record deferred_construction := mk_cell {
  storage_ : option T;
  initialized_ : bool
}.

(** Calls into [T] that ran to completion. *)
Inductive event :=
| Constructed (v : T)
| Destroyed (v : T).

Record state := mk_state {
  heap : gmap nat deferred_construction;
  trace : list event
}.

(** How a call ends: it returns, it exits with an exception of [T], the
    assertion handler ends the process, or the program did something the
    language leaves undefined (it used an object that is not there). *)
Inductive outcome (A : Type) :=
| Return (a : A)
| Throw (e : exn)
| Abort
| Undefined.

Arguments Return {A} a.
Arguments Throw {A} e.
Arguments Abort {A}.
Arguments Undefined {A}.

Definition M (A : Type) : Type := state -> outcome A * state.

Definition ret {A} (a : A) : M A := fun s => (Return a, s).

Definition bind {A B} (m : M A) (k : A -> M B) : M B := fun s =>
  match m s with
  | (Return a, s') => k a s'
  | (Throw e, s') => (Throw e, s')
  | (Abort, s') => (Abort, s')
  | (Undefined, s') => (Undefined, s')
  end.

Notation "'let*' x := m 'in' k" := (bind m (fun x => k))
  (at level 10, x name, m at level 100, k at level 200).
Notation "m >> k" := (bind m (fun _ => k))
  (at level 100, k at level 200, right associativity).

Definition throw {A} (e : exn) : M A := fun s => (Throw e, s).
Definition abort {A} : M A := fun s => (Abort, s).
Definition undefined {A} : M A := fun s => (Undefined, s).

Definition load (a : nat) : M deferred_construction := fun s =>
  match heap s !! a with
  | Some o => (Return o, s)
  | None => (Undefined, s)
  end.

Definition store (a : nat) (o : deferred_construction) : M unit := fun s =>
  (Return tt, mk_state (<[a := o]> (heap s)) (trace s)).

Definition release (a : nat) : M unit := fun s =>
  (Return tt, mk_state (delete a (heap s)) (trace s)).

Definition emit (ev : event) : M unit := fun s =>
  (Return tt, mk_state (heap s) (trace s ++ [ev])).

(** Member access through [this]. *)
Definition get_initialized_ (this : nat) : M bool :=
  let* o := load this in ret (initialized_ o).

Definition set_initialized_ (this : nat) (b : bool) : M unit :=
  let* o := load this in store this (mk_cell (storage_ o) b).

(** A [void*] into some cell's [storage_]; the cell is named by its
    address. *)
Record pointer := mk_pointer { pointee : nat }.

Definition get_storage (p : pointer) : M (option T) :=
  let* o := load (pointee p) in ret (storage_ o).

Definition set_storage (p : pointer) (x : option T) : M unit :=
  let* o := load (pointee p) in store (pointee p) (mk_cell x (initialized_ o)).

(** The four reference types the accessors return. *)
Inductive ref_kind :=
| lvalue_ref          (* value_type& *)
| const_lvalue_ref    (* const value_type& *)
| rvalue_ref          (* value_type&& *)
| const_rvalue_ref.   (* const value_type&& *)

Record reference := mk_ref { ref_kind_of : ref_kind; ref_to : pointer }.

(** Reading through a reference.  There must be an object behind it. *)
Definition read (r : reference) : M T :=
  let* x := get_storage (ref_to r) in
  match x with
  | Some v => ret v
  | None => undefined
  end.

(** Writing the referent's value (what [T]'s move constructor does to
    its argument). *)
Definition write (r : reference) (v : T) : M unit :=
  let* x := get_storage (ref_to r) in
  match x with
  | Some _ => set_storage (ref_to r) (Some v)
  | None => undefined
  end.

(** [::new (p) value_type(...)]: the storage is taken over (whatever
    lived there is gone, without a destructor call), then the
    constructor runs; [c] is what it comes to. *)
Definition placement_new (p : pointer) (c : exn + T) : M unit :=
  set_storage p None >>
  match c with
  | inl e => throw e
  | inr v => set_storage p (Some v) >> emit (Constructed v)
  end.

(** [r.~value_type()]. *)
Definition destroy_at (r : reference) : M unit :=
  let* v := read r in
  set_storage (ref_to r) None >>
  emit (Destroyed v).

(** Modelled from the spec: the [DEBUG_ASSERT] macro and
    [detail::assert_handler] of [type_safe/detail/assert.hpp], which is
    not among the sources.  In a checked build a false condition is
    reported and the process is ended (fail fast); in an optimized
    build the check is compiled out. *)
Definition DEBUG_ASSERT (cond : bool) : M unit :=
  if checked && negb cond then abort else ret tt.

(** ** Member functions *)

Definition as_void (this : nat) : M pointer := ret (mk_pointer this).

Definition has_value (this : nat) : M bool := get_initialized_ this.

Definition operator_bool (this : nat) : M bool := has_value this.

(** [value_type& value() &] *)
Definition value_lvalue (this : nat) : M reference :=
  let* b := has_value this in
  DEBUG_ASSERT b >>
  let* p := as_void this in
  ret (mk_ref lvalue_ref p).

(** [const value_type& value() const&] *)
Definition value_const_lvalue (this : nat) : M reference :=
  let* b := has_value this in
  DEBUG_ASSERT b >>
  let* p := as_void this in
  ret (mk_ref const_lvalue_ref p).

(** [value_type&& value() &&] *)
Definition value_rvalue (this : nat) : M reference :=
  let* b := has_value this in
  DEBUG_ASSERT b >>
  let* p := as_void this in
  ret (mk_ref rvalue_ref p).

(** [const value_type&& value() const&&] *)
Definition value_const_rvalue (this : nat) : M reference :=
  let* b := has_value this in
  DEBUG_ASSERT b >>
  let* p := as_void this in
  ret (mk_ref const_rvalue_ref p).

Definition emplace (this : nat) (a : args) : M unit :=
  let* b := has_value this in
  DEBUG_ASSERT (negb b) >>
  let* p := as_void this in
  placement_new p (construct a) >>
  set_initialized_ this true.

(** [operator=(U&& u)] *)
Definition operator_assign (this : nat) (u : conv) : M nat :=
  emplace this (forward_one u) >>
  ret this.

(** [deferred_construction() noexcept : initialized_(false)] *)
Definition default_ctor (this : nat) : M unit :=
  store this (mk_cell None false).

(** [deferred_construction(const deferred_construction& other)] *)
Definition copy_ctor (this other : nat) : M unit :=
  let* i := get_initialized_ other in
  store this (mk_cell None i) >>
  let* b := get_initialized_ this in
  if b then
    let* p := as_void this in
    let* r := value_const_lvalue other in
    let* v := read r in
    placement_new p (copy_construct v)
  else ret tt.

(** [deferred_construction(deferred_construction&& other)] *)
Definition move_ctor (this other : nat) : M unit :=
  let* i := get_initialized_ other in
  store this (mk_cell None i) >>
  let* b := get_initialized_ this in
  if b then
    let* p := as_void this in
    let* r := value_rvalue other in
    let* v := read r in
    write r (snd (move_construct v)) >>
    placement_new p (fst (move_construct v))
  else ret tt.

(** [~deferred_construction() noexcept] *)
Definition dtor (this : nat) : M unit :=
  let* b := get_initialized_ this in
  if b then
    let* r := value_lvalue this in
    destroy_at r
  else ret tt.

(** ** Object lifetime

    A declaration [deferred_construction<T> a(...);] runs a constructor
    on fresh storage.  When the constructor exits with an exception the
    object never comes to life: its storage is given back and
    [~deferred_construction] does not run for it. *)
Definition declare (ctor : nat -> M unit) (a : nat) : M unit := fun s =>
  match heap s !! a with
  | Some _ => (Undefined, s)
  | None =>
      match ctor a s with
      | (Throw e, s') => (Throw e, snd (release a s'))
      | r => r
      end
  end.

(** The end of [a]'s scope: the destructor, then the storage goes. *)
Definition end_of_scope (a : nat) : M unit :=
  dtor a >> release a.

(** ** Client programs *)

Inductive op :=
| DeclareDefault (a : nat)             (* deferred_construction<T> a; *)
| DeclareCopy (a src : nat)            (* deferred_construction<T> a(src); *)
| DeclareMove (a src : nat)            (* deferred_construction<T> a(std::move(src)); *)
| Emplace (a : nat) (x : args)         (* a.emplace(x...); *)
| Assign (a : nat) (u : conv)          (* a = u; *)
| HasValue (a : nat)                   (* a.has_value(); *)
| ToBool (a : nat)                     (* static_cast<bool>(a); *)
| Value (k : ref_kind) (a : nat)       (* a.value(), in one of its four forms *)
| Destroy (a : nat).                   (* a goes out of scope *)

Definition value (k : ref_kind) : nat -> M reference :=
  match k with
  | lvalue_ref => value_lvalue
  | const_lvalue_ref => value_const_lvalue
  | rvalue_ref => value_rvalue
  | const_rvalue_ref => value_const_rvalue
  end.

Definition exec (o : op) : M unit :=
  match o with
  | DeclareDefault a => declare default_ctor a
  | DeclareCopy a src => declare (fun this => copy_ctor this src) a
  | DeclareMove a src => declare (fun this => move_ctor this src) a
  | Emplace a x => emplace a x
  | Assign a u => operator_assign a u >> ret tt
  | HasValue a => has_value a >> ret tt
  | ToBool a => operator_bool a >> ret tt
  | Value k a => value k a >> ret tt
  | Destroy a => end_of_scope a
  end.

(** A program is a list of statements.  An exception is caught by the
    client, which goes on; a fired assertion or undefined behaviour
    ends the run. *)
Fixpoint run (ops : list op) : M unit := fun s =>
  match ops with
  | [] => (Return tt, s)
  | o :: rest =>
      match exec o s with
      | (Return _, s') => run rest s'
      | (Throw _, s') => run rest s'
      | (Abort, s') => (Abort, s')
      | (Undefined, s') => (Undefined, s')
      end
  end.

Fixpoint end_of_scopes (l : list nat) : M unit :=
  match l with
  | [] => ret tt
  | a :: rest => end_of_scope a >> end_of_scopes rest
  end.

(** Every cell still alive goes out of scope. *)
Definition destroy_all : M unit := fun s =>
  end_of_scopes (map fst (map_to_list (heap s))) s.

Definition initial : state := mk_state ∅ [].

(** What a counting value type would report. *)
Definition is_construction (ev : event) : bool :=
  match ev with Constructed _ => true | Destroyed _ => false end.

Definition is_destruction (ev : event) : bool :=
  match ev with Constructed _ => false | Destroyed _ => true end.

Definition constructions (tr : list event) : nat :=
  length (List.filter is_construction tr).

Definition destructions (tr : list event) : nat :=
  length (List.filter is_destruction tr).

(** ** Notions used to state the properties *)

(** The cell at [this] reports that it holds a value. *)
Definition filled (this : nat) (s : state) : Prop :=
  has_value this s = (Return true, s).

(** Invariant I1: the flag is set exactly when a [T] lives in the
    storage. *)
Definition wf_cell (c : deferred_construction) : Prop :=
  initialized_ c = true <-> is_Some (storage_ c).

Definition wf_heap (h : gmap nat deferred_construction) : Prop :=
  forall a c, h !! a = Some c -> wf_cell c.

(** The number of cells whose value is still to be destroyed. *)
Definition pending (h : gmap nat deferred_construction) : nat :=
  size (filter (fun kv => initialized_ (snd kv) = true) h).

Definition balanced (s : state) : Prop :=
  constructions (trace s) = destructions (trace s) + pending (heap s).

Definition inv (s : state) : Prop := wf_heap (heap s) /\ balanced s.

End Cell.

Arguments Return {T VT A} a.
Arguments Throw {T VT A} e.
Arguments Abort {T VT A}.
Arguments Undefined {T VT A}.
Arguments mk_cell {T} _ _.
Arguments mk_state {T} _ _.
Arguments Constructed {T} v.
Arguments Destroyed {T} v.

(** ** A value type to run the model on

    [Point{x, y}], built from two integers.  A negative [x] makes the
    constructor throw, [y = 13] makes the copy constructor throw, the
    move constructor never throws and leaves the origin behind. *)
Module PointType.

Record Point := mk_point { px : Z; py : Z }.

Definition point_ctor (a : Z * Z) : string + Point :=
  if (fst a <? 0)%Z then inl "negative"%string else inr (mk_point (fst a) (snd a)).

Definition point_copy (p : Point) : string + Point :=
  if (py p =? 13)%Z then inl "unlucky"%string else inr p.

Definition point_move (p : Point) : (string + Point) * Point :=
  (inr p, mk_point 0 0).

#[export] Instance point_value_type : ValueType Point := {|
  args := Z * Z;
  conv := Z;
  exn := string;
  forward_one := fun u => (u, u);
  construct := point_ctor;
  copy_construct := point_copy;
  move_construct := point_move
|}.

(** A program state with one empty cell, at address 0. *)
Definition point_empty : @state Point :=
  mk_state {[0%nat := mk_cell None false]} [].

(** The same cell after [emplace(3, 4)]. *)
Definition point_filled : @state Point :=
  mk_state {[0%nat := mk_cell (Some (mk_point 3 4)) true]} [Constructed (mk_point 3 4)].

(** A filled cell whose value the copy constructor refuses. *)
Definition point_unlucky : @state Point :=
  mk_state {[0%nat := mk_cell (Some (mk_point 1 13)) true]} [Constructed (mk_point 1 13)].

(** A program within the contracts: two cells, a constructor that
    throws, a copy, a move, one scope left early. *)
Definition point_program : list (@op Point _) :=
  [DeclareDefault 0; DeclareDefault 3; Emplace 0 (3, 4)%Z; Emplace 3 (-1, 0)%Z;
   DeclareCopy 1 0; DeclareMove 2 1; Value const_lvalue_ref 2; Destroy 0].

(** A cell is declared, filled, and filled again. *)
Definition double_emplace : list (@op Point _) :=
  [DeclareDefault 0; Emplace 0 (3, 4)%Z; Emplace 0 (5, 6)%Z].

End PointType.

(** ** A value type whose move constructor may throw

    A counter: any number builds one and copies never fail, but a
    counter at zero cannot be moved.  A successful move leaves zero
    behind. *)
Module CounterType.

Definition counter_move (n : nat) : (unit + nat) * nat :=
  match n with
  | O => (inl tt, O)
  | S _ => (inr n, O)
  end.

#[export] Instance counter_value_type : ValueType nat := {|
  args := nat;
  conv := nat;
  exn := unit;
  forward_one := fun u => u;
  construct := fun n => inr n;
  copy_construct := fun n => inr n;
  move_construct := counter_move
|}.

(** One filled cell, at address 0, holding zero. *)
Definition counter_zero : @state nat :=
  mk_state {[0 := mk_cell (Some 0) true]} [Constructed 0].

End CounterType.

(** * The cells a statement may write *)

Section Footprint.

Context {T : Type} `{VT : ValueType T}.


(** Where an exception leaving a statement can come from: the
    constructor of [T] that the statement calls, if any. *)
Definition thrown_by (o : op) (s : @state T) (e : exn) : Prop :=
  match o with
  | Emplace _ x => construct x = inl e
  | Assign _ u => construct (forward_one u) = inl e
  | DeclareCopy _ src =>
      exists c v, heap s !! src = Some c /\ storage_ c = Some v /\
                  copy_construct v = inl e
  | DeclareMove _ src =>
      exists c v, heap s !! src = Some c /\ storage_ c = Some v /\
                  fst (move_construct v) = inl e
  | _ => False
  end.

(** The statements whose precondition fails in [s]: filling a cell
    that has a value, reading a cell that has none. *)
Definition violates (o : op) (s : @state T) : Prop :=
  match o with
  | Emplace a _ => has_value a s = (Return true, s)
  | Assign a _ => has_value a s = (Return true, s)
  | Value _ a => has_value a s = (Return false, s)
  | _ => False
  end.

End Footprint.

(** * Proof tools *)

(** Unfold the member functions down to the store. *)
Ltac unfold_cell :=
  repeat progress unfold operator_assign, emplace, value, value_lvalue,
    value_const_lvalue, value_rvalue, value_const_rvalue, operator_bool, has_value,
    copy_ctor, move_ctor, default_ctor, dtor, end_of_scope, declare, destroy_at,
    placement_new, read, write, DEBUG_ASSERT, as_void, get_initialized_,
    set_initialized_, get_storage, set_storage, bind, load, store, release, emit,
    ret, abort, throw, undefined.

(** Run a computation forward, using what is known of the store. *)
Ltac msimpl :=
  repeat (progress (simpl;
     repeat match goal with
            | H : heap _ !! _ = _ |- _ => rewrite H
            | H : construct _ = _ |- _ => rewrite H
            | H : copy_construct _ = _ |- _ => rewrite H
            end;
     rewrite ?andb_false_r, ?andb_true_r, ?lookup_insert_eq, ?insert_insert_eq,
       ?delete_insert_eq;
     rewrite ?lookup_insert_ne by done)).

(** * Properties *)

Section Facts.

Context {T : Type} `{VT : ValueType T}.

Implicit Types (checked : bool) (s : @state T) (this other a : nat).
Implicit Types (c : @deferred_construction T) (k : ref_kind).

(** ** What each member function computes *)

Lemma has_value_eq this s :
  has_value this s =
  match heap s !! this with
  | Some c => (Return (initialized_ c), s)
  | None => (Undefined, s)
  end.
Proof. unfold_cell. by destruct (heap s !! this). Qed.

Lemma value_eq checked k this s :
  value checked k this s =
  match heap s !! this with
  | Some c =>
      if checked && negb (initialized_ c) then (Abort, s)
      else (Return (mk_ref k (mk_pointer this)), s)
  | None => (Undefined, s)
  end.
Proof.
  destruct k; unfold_cell;
    (destruct (heap s !! this) as [[st i]|]; [|done]);
    by destruct i, checked.
Qed.

Lemma read_eq (r : reference) s :
  read r s =
  match heap s !! pointee (ref_to r) with
  | Some c =>
      match storage_ c with
      | Some v => (Return v, s)
      | None => (Undefined, s)
      end
  | None => (Undefined, s)
  end.
Proof.
  unfold_cell. destruct (heap s !! pointee (ref_to r)) as [[[v|] i]|]; done.
Qed.

Lemma emplace_eq checked this (x : args) s :
  emplace checked this x s =
  match heap s !! this with
  | None => (Undefined, s)
  | Some c =>
      if checked && initialized_ c then (Abort, s)
      else
        match construct x with
        | inl e =>
            (Throw e,
             mk_state (<[this := mk_cell None (initialized_ c)]> (heap s)) (trace s))
        | inr v =>
            (Return tt,
             mk_state (<[this := mk_cell (Some v) true]> (heap s))
                      (trace s ++ [Constructed v]))
        end
  end.
Proof.
  unfold_cell.
  destruct (heap s !! this) as [[st i]|] eqn:E; [|done].
  destruct i, checked, (construct x) eqn:C; msimpl; done.
Qed.

Lemma copy_ctor_eq checked this other s :
  heap s !! this = None ->
  copy_ctor checked this other s =
  match heap s !! other with
  | None => (Undefined, s)
  | Some c =>
      if initialized_ c then
        match storage_ c with
        | None =>
            (Undefined, mk_state (<[this := mk_cell None true]> (heap s)) (trace s))
        | Some v =>
            match copy_construct v with
            | inl e =>
                (Throw e, mk_state (<[this := mk_cell None true]> (heap s)) (trace s))
            | inr v' =>
                (Return tt,
                 mk_state (<[this := mk_cell (Some v') true]> (heap s))
                          (trace s ++ [Constructed v']))
            end
        end
      else (Return tt, mk_state (<[this := mk_cell None false]> (heap s)) (trace s))
  end.
Proof.
  intros Hthis. unfold_cell.
  destruct (heap s !! other) as [[st i]|] eqn:E; [|done].
  assert (this <> other) by congruence.
  destruct i; msimpl; [|done].
  destruct st as [v|]; msimpl; [|done].
  destruct (copy_construct v) eqn:C; msimpl; done.
Qed.

Lemma move_ctor_eq checked this other s :
  heap s !! this = None ->
  move_ctor checked this other s =
  match heap s !! other with
  | None => (Undefined, s)
  | Some c =>
      if initialized_ c then
        match storage_ c with
        | None =>
            (Undefined, mk_state (<[this := mk_cell None true]> (heap s)) (trace s))
        | Some v =>
            let h := <[other := mk_cell (Some (snd (move_construct v))) true]> (heap s) in
            match fst (move_construct v) with
            | inl e => (Throw e, mk_state (<[this := mk_cell None true]> h) (trace s))
            | inr v' =>
                (Return tt,
                 mk_state (<[this := mk_cell (Some v') true]> h)
                          (trace s ++ [Constructed v']))
            end
        end
      else (Return tt, mk_state (<[this := mk_cell None false]> (heap s)) (trace s))
  end.
Proof.
  intros Hthis. unfold_cell.
  destruct (heap s !! other) as [[st i]|] eqn:E; [|done].
  assert (this <> other) by congruence.
  assert (other <> this) by congruence.
  destruct i; msimpl; [|done].
  destruct st as [v|]; msimpl; [|done].
  destruct (move_construct v) as [[e|v'] vf]; msimpl.
  - by rewrite (insert_insert_ne _ other this), insert_insert_eq by done.
  - by rewrite (insert_insert_ne _ other this), insert_insert_eq by done.
Qed.

Lemma dtor_eq checked this s :
  dtor checked this s =
  match heap s !! this with
  | None => (Undefined, s)
  | Some c =>
      if initialized_ c then
        match storage_ c with
        | Some v =>
            (Return tt,
             mk_state (<[this := mk_cell None true]> (heap s)) (trace s ++ [Destroyed v]))
        | None => (Undefined, s)
        end
      else (Return tt, s)
  end.
Proof.
  unfold_cell.
  destruct (heap s !! this) as [[[v|] i]|] eqn:E; [| |done]; destruct i; msimpl; done.
Qed.

Lemma end_of_scope_eq checked this s :
  end_of_scope checked this s =
  match heap s !! this with
  | None => (Undefined, s)
  | Some c =>
      if initialized_ c then
        match storage_ c with
        | Some v =>
            (Return tt, mk_state (delete this (heap s)) (trace s ++ [Destroyed v]))
        | None => (Undefined, s)
        end
      else (Return tt, mk_state (delete this (heap s)) (trace s))
  end.
Proof.
  unfold end_of_scope, bind. rewrite dtor_eq.
  destruct (heap s !! this) as [[[v|] i]|] eqn:E; [| |done]; destruct i;
    unfold release; msimpl; done.
Qed.

Lemma declare_default_eq this s :
  declare default_ctor this s =
  match heap s !! this with
  | Some _ => (Undefined, s)
  | None => (Return tt, mk_state (<[this := mk_cell None false]> (heap s)) (trace s))
  end.
Proof. unfold declare. by destruct (heap s !! this). Qed.

Lemma state_eta s : mk_state (heap s) (trace s) = s.
Proof. by destruct s. Qed.

Lemma declare_copy_eq checked this other s :
  declare (fun t => copy_ctor checked t other) this s =
  match heap s !! this with
  | Some _ => (Undefined, s)
  | None =>
      match heap s !! other with
      | None => (Undefined, s)
      | Some c =>
          if initialized_ c then
            match storage_ c with
            | None =>
                (Undefined, mk_state (<[this := mk_cell None true]> (heap s)) (trace s))
            | Some v =>
                match copy_construct v with
                | inl e => (Throw e, s)
                | inr v' =>
                    (Return tt,
                     mk_state (<[this := mk_cell (Some v') true]> (heap s))
                              (trace s ++ [Constructed v']))
                end
            end
          else (Return tt, mk_state (<[this := mk_cell None false]> (heap s)) (trace s))
      end
  end.
Proof.
  unfold declare. destruct (heap s !! this) eqn:Hthis; [done|].
  rewrite copy_ctor_eq by done.
  destruct (heap s !! other) as [[[v|] [|]]|]; simpl; try done.
  destruct (copy_construct v); [|done].
  unfold release; simpl. by rewrite delete_insert_eq, delete_id, state_eta.
Qed.

Lemma declare_move_eq checked this other s :
  declare (fun t => move_ctor checked t other) this s =
  match heap s !! this with
  | Some _ => (Undefined, s)
  | None =>
      match heap s !! other with
      | None => (Undefined, s)
      | Some c =>
          if initialized_ c then
            match storage_ c with
            | None =>
                (Undefined, mk_state (<[this := mk_cell None true]> (heap s)) (trace s))
            | Some v =>
                let h := <[other := mk_cell (Some (snd (move_construct v))) true]> (heap s) in
                match fst (move_construct v) with
                | inl e => (Throw e, mk_state h (trace s))
                | inr v' =>
                    (Return tt,
                     mk_state (<[this := mk_cell (Some v') true]> h)
                              (trace s ++ [Constructed v']))
                end
            end
          else (Return tt, mk_state (<[this := mk_cell None false]> (heap s)) (trace s))
      end
  end.
Proof.
  unfold declare. destruct (heap s !! this) eqn:Hthis; [done|].
  rewrite move_ctor_eq by done.
  destruct (heap s !! other) as [[[v|] [|]]|] eqn:Hother; simpl; try done.
  destruct (move_construct v) as [[e|v'] vf]; [|done]. simpl.
  unfold release; simpl. rewrite delete_insert_eq, delete_id; [done|].
  rewrite lookup_insert_ne; [done|congruence].
Qed.

Lemma exec_assign_eq checked this (u : conv) s :
  exec checked (Assign this u) s = emplace checked this (forward_one u) s.
Proof.
  simpl. unfold operator_assign, bind, ret.
  by destruct (emplace checked this (forward_one u) s) as [[[]| | |] s'].
Qed.

Lemma exec_has_value_eq checked this s :
  exec checked (HasValue this) s =
  match heap s !! this with
  | Some _ => (Return tt, s)
  | None => (Undefined, s)
  end.
Proof.
  simpl. unfold bind. rewrite has_value_eq. by destruct (heap s !! this).
Qed.

Lemma exec_to_bool_eq checked this s :
  exec checked (ToBool this) s = exec checked (HasValue this) s.
Proof. done. Qed.

Lemma exec_value_eq checked k this s :
  exec checked (Value k this) s =
  match heap s !! this with
  | Some c => if checked && negb (initialized_ c) then (Abort, s) else (Return tt, s)
  | None => (Undefined, s)
  end.
Proof.
  simpl. unfold bind. rewrite value_eq.
  destruct (heap s !! this) as [c|]; [|done].
  by destruct (checked && negb (initialized_ c)).
Qed.

(** ** A filled cell stays filled *)

Lemma filled_lookup this s :
  filled this s <-> exists c, heap s !! this = Some c /\ initialized_ c = true.
Proof.
  unfold filled. rewrite has_value_eq. split.
  - destruct (heap s !! this) as [c|]; [|done]. intros [= Hc]. eauto.
  - intros (c & -> & ->). done.
Qed.

Lemma exec_keeps_filled checked (o : op) a s :
  o <> Destroy a -> filled a s -> filled a (snd (exec checked o s)).
Proof.
  intros Ho. rewrite !filled_lookup. intros (c & Ha & Hc).
  destruct o as [b|b src|b src|b x|b u|b|b|k b|b].
  - simpl exec. rewrite declare_default_eq.
    destruct (heap s !! b) eqn:Hb; simpl; [eauto|].
    exists c. by simplify_map_eq.
  - simpl exec. rewrite declare_copy_eq.
    destruct (heap s !! b) eqn:Hb; simpl; [eauto|].
    destruct (heap s !! src) as [[[v|] [|]]|]; simpl;
      try destruct (copy_construct v); simpl; exists c; by simplify_map_eq.
  - simpl exec. rewrite declare_move_eq.
    destruct (heap s !! b) eqn:Hb; simpl; [eauto|].
    destruct (heap s !! src) as [[[v|] [|]]|] eqn:Hsrc; simpl;
      try destruct (move_construct v) as [[e|v'] vf]; simpl;
      try (exists c; by simplify_map_eq).
    all: destruct (decide (a = src)) as [->|]; simplify_map_eq; eauto.
  - simpl exec. rewrite emplace_eq.
    destruct (heap s !! b) as [cb|] eqn:Hb; simpl; [|eauto].
    destruct (checked && initialized_ cb); simpl; [eauto|].
    destruct (construct x); simpl;
      (destruct (decide (a = b)) as [->|]; simplify_map_eq; eauto).
  - rewrite exec_assign_eq, emplace_eq.
    destruct (heap s !! b) as [cb|] eqn:Hb; simpl; [|eauto].
    destruct (checked && initialized_ cb); simpl; [eauto|].
    destruct (construct (forward_one u)); simpl;
      (destruct (decide (a = b)) as [->|]; simplify_map_eq; eauto).
  - rewrite exec_has_value_eq. destruct (heap s !! b); eauto.
  - rewrite exec_to_bool_eq, exec_has_value_eq. destruct (heap s !! b); eauto.
  - rewrite exec_value_eq. destruct (heap s !! b) as [cb|]; [|eauto].
    destruct (checked && negb (initialized_ cb)); eauto.
  - assert (a <> b) by congruence.
    simpl exec. rewrite end_of_scope_eq.
    destruct (heap s !! b) as [[[v|] [|]]|]; simpl; exists c; by simplify_map_eq.
Qed.

Lemma run_keeps_filled checked (ops : list op) a s :
  Forall (fun o => o <> Destroy a) ops -> filled a s ->
  filled a (snd (run checked ops s)).
Proof.
  intros Hops. revert s. induction Hops as [|o ops Ho _ IH]; intros s Hs; [done|].
  simpl. pose proof (exec_keeps_filled checked o a s Ho Hs) as Hstep.
  destruct (exec checked o s) as [[[]| | |] s']; simpl in *; auto.
Qed.

(** ** The storage invariant and the construction count *)

Lemma constructions_snoc (tr : list (@event T)) ev :
  constructions (tr ++ [ev]) = constructions tr + (if is_construction ev then 1 else 0).
Proof.
  unfold constructions. rewrite List.filter_app, length_app. simpl.
  by destruct (is_construction ev).
Qed.

Lemma destructions_snoc (tr : list (@event T)) ev :
  destructions (tr ++ [ev]) = destructions tr + (if is_destruction ev then 1 else 0).
Proof.
  unfold destructions. rewrite List.filter_app, length_app. simpl.
  by destruct (is_destruction ev).
Qed.

Lemma pending_insert (h : gmap nat (@deferred_construction T)) a c :
  pending (<[a := c]> h) = pending (delete a h) + (if initialized_ c then 1 else 0).
Proof.
  unfold pending. rewrite <- insert_delete_eq.
  destruct (initialized_ c) eqn:Hc.
  - rewrite map_filter_insert_True by done.
    rewrite map_size_insert_None; [lia|].
    apply map_lookup_filter_None. left. apply lookup_delete_eq.
  - rewrite map_filter_insert_False by (simpl; congruence).
    rewrite delete_delete_eq. lia.
Qed.

Lemma pending_lookup (h : gmap nat (@deferred_construction T)) a c :
  h !! a = Some c ->
  pending h = pending (delete a h) + (if initialized_ c then 1 else 0).
Proof. intros Ha. by rewrite <- pending_insert, insert_id. Qed.

Lemma pending_fresh (h : gmap nat (@deferred_construction T)) a :
  h !! a = None -> pending (delete a h) = pending h.
Proof. intros Ha. by rewrite delete_id. Qed.

Lemma pending_empty : pending (∅ : gmap nat (@deferred_construction T)) = 0.
Proof. unfold pending. by rewrite map_filter_empty, map_size_empty. Qed.

Lemma wf_heap_insert (h : gmap nat (@deferred_construction T)) a c :
  wf_heap h -> wf_cell c -> wf_heap (<[a := c]> h).
Proof.
  intros Hwf Hc b cb. destruct (decide (a = b)) as [->|].
  - rewrite lookup_insert_eq. by intros [= <-].
  - rewrite lookup_insert_ne by done. apply Hwf.
Qed.

Lemma wf_heap_delete (h : gmap nat (@deferred_construction T)) a :
  wf_heap h -> wf_heap (delete a h).
Proof.
  intros Hwf b cb. destruct (decide (a = b)) as [->|].
  - by rewrite lookup_delete_eq.
  - rewrite lookup_delete_ne by done. apply Hwf.
Qed.

Lemma wf_cell_filled (v : T) : wf_cell (mk_cell (Some v) true).
Proof. unfold wf_cell. simpl. split; eauto. Qed.

Lemma wf_cell_empty : wf_cell (mk_cell (None : option T) false).
Proof. unfold wf_cell. simpl. split; [done|]. by intros [? ?]. Qed.

Ltac solve_wf :=
  simpl; repeat (apply wf_heap_insert || apply wf_heap_delete);
  auto using wf_cell_filled, wf_cell_empty.

Ltac count_events :=
  unfold balanced in *; simpl in *;
  rewrite ?constructions_snoc, ?destructions_snoc, ?pending_insert; simpl.

Lemma emplace_keeps_inv this (x : args) s r s' :
  inv s -> emplace true this x s = (r, s') ->
  r <> Abort -> r <> Undefined -> inv s'.
Proof.
  intros [Hwf Hbal]; unfold balanced in Hbal. rewrite emplace_eq.
  destruct (heap s !! this) as [[st i]|] eqn:Hthis; [|by intros [= <- <-]].
  destruct i; simpl; [by intros [= <- <-]|].
  rewrite (pending_lookup _ _ _ Hthis) in Hbal. simpl in Hbal.
  destruct (construct x) as [e|v]; intros [= <- <-] _ _; split.
  - solve_wf.
  - count_events. lia.
  - solve_wf.
  - count_events. lia.
Qed.

Lemma exec_keeps_inv (o : op) s r s' :
  inv s -> exec true o s = (r, s') ->
  r <> Abort -> r <> Undefined -> inv s'.
Proof.
  destruct o as [b|b src|b src|b x|b u|b|b|k b|b].
  - intros [Hwf Hbal]; unfold balanced in Hbal. simpl exec. rewrite declare_default_eq.
    destruct (heap s !! b) eqn:Hb; intros [= <- <-]; [done|]. intros _ _. split.
    + solve_wf.
    + count_events. rewrite pending_fresh by done. lia.
  - intros [Hwf Hbal]; unfold balanced in Hbal. simpl exec. rewrite declare_copy_eq.
    destruct (heap s !! b) eqn:Hb; [by intros [= <- <-]|].
    destruct (heap s !! src) as [[[v|] [|]]|] eqn:Hsrc; simpl;
      try (by intros [= <- <-]).
    + destruct (copy_construct v) as [e|v']; intros [= <- <-] _ _; [done|]. split.
      * solve_wf.
      * count_events. rewrite pending_fresh by done. lia.
    + intros [= <- <-] _ _. split.
      * solve_wf.
      * count_events. rewrite pending_fresh by done. lia.
    + intros [= <- <-] _ _. split.
      * solve_wf.
      * count_events. rewrite pending_fresh by done. lia.
  - intros [Hwf Hbal]; unfold balanced in Hbal. simpl exec. rewrite declare_move_eq.
    destruct (heap s !! b) eqn:Hb; [by intros [= <- <-]|].
    destruct (heap s !! src) as [[[v|] [|]]|] eqn:Hsrc; simpl;
      try (by intros [= <- <-]).
    + assert (b <> src) by congruence.
      rewrite (pending_lookup _ _ _ Hsrc) in Hbal. simpl in Hbal.
      destruct (move_construct v) as [[e|v'] vf]; simpl; intros [= <- <-] _ _; split.
      * solve_wf.
      * count_events. lia.
      * solve_wf.
      * count_events. rewrite delete_insert_ne, delete_id by done.
        rewrite pending_insert. simpl. lia.
    + intros [= <- <-] _ _. split.
      * solve_wf.
      * count_events. rewrite pending_fresh by done. lia.
    + intros [= <- <-] _ _. split.
      * solve_wf.
      * count_events. rewrite pending_fresh by done. lia.
  - apply emplace_keeps_inv.
  - rewrite exec_assign_eq. apply emplace_keeps_inv.
  - rewrite exec_has_value_eq. by destruct (heap s !! b); intros ? [= <- <-].
  - rewrite exec_to_bool_eq, exec_has_value_eq.
    by destruct (heap s !! b); intros ? [= <- <-].
  - rewrite exec_value_eq. destruct (heap s !! b) as [cb|]; [|by intros ? [= <- <-]].
    by destruct (true && negb (initialized_ cb)); intros ? [= <- <-].
  - intros [Hwf Hbal]; unfold balanced in Hbal. simpl exec. rewrite end_of_scope_eq.
    destruct (heap s !! b) as [[[v|] [|]]|] eqn:Hb; simpl;
      try (by intros [= <- <-]).
    + rewrite (pending_lookup _ _ _ Hb) in Hbal. simpl in Hbal.
      intros [= <- <-] _ _. split; [solve_wf|].
      count_events. lia.
    + rewrite (pending_lookup _ _ _ Hb) in Hbal. simpl in Hbal.
      intros [= <- <-] _ _. split; [solve_wf|].
      count_events. lia.
    + rewrite (pending_lookup _ _ _ Hb) in Hbal. simpl in Hbal.
      intros [= <- <-] _ _. split; [solve_wf|].
      count_events. lia.
Qed.

Lemma run_keeps_inv (ops : list op) s s' :
  inv s -> run true ops s = (Return tt, s') -> inv s'.
Proof.
  revert s. induction ops as [|o ops IH]; intros s Hs; simpl.
  - by intros [= <-].
  - destruct (exec true o s) as [r s1] eqn:Hexec.
    destruct r as [[]|e| |]; try done.
    + apply IH. eapply exec_keeps_inv; eauto; done.
    + apply IH. eapply exec_keeps_inv; eauto; done.
Qed.

(** ** The two builds agree where no assertion fires *)

Lemma exec_unchecked checked (o : op) s r s' :
  exec true o s = (r, s') -> r <> Abort -> exec checked o s = (r, s').
Proof.
  destruct o as [b|b src|b src|b x|b u|b|b|k b|b]; try done.
  - simpl exec. by rewrite !declare_copy_eq.
  - simpl exec. by rewrite !declare_move_eq.
  - simpl exec. rewrite !emplace_eq.
    destruct (heap s !! b) as [[st [|]]|]; simpl; rewrite ?andb_false_r; try done.
    by intros [= <- <-].
  - rewrite !exec_assign_eq, !emplace_eq.
    destruct (heap s !! b) as [[st [|]]|]; simpl; rewrite ?andb_false_r; try done.
    by intros [= <- <-].
  - rewrite !exec_value_eq.
    destruct (heap s !! b) as [[st [|]]|]; simpl; rewrite ?andb_false_r; try done.
    by intros [= <- <-].
  - simpl exec. by rewrite !end_of_scope_eq.
Qed.

Lemma run_unchecked checked (ops : list op) s s' :
  run true ops s = (Return tt, s') -> run checked ops s = (Return tt, s').
Proof.
  revert s. induction ops as [|o ops IH]; intros s; simpl; [done|].
  destruct (exec true o s) as [r s1] eqn:Hexec.
  destruct r as [[]|e| |]; try done.
  - rewrite (exec_unchecked checked _ _ _ _ Hexec) by done. apply IH.
  - rewrite (exec_unchecked checked _ _ _ _ Hexec) by done. apply IH.
Qed.

(** ** Leaving every scope *)

Lemma end_of_scope_keeps_inv checked a s :
  inv s -> is_Some (heap s !! a) ->
  exists s', end_of_scope checked a s = (Return tt, s') /\
             inv s' /\ heap s' = delete a (heap s).
Proof.
  intros [Hwf Hbal] [c Ha]; unfold balanced in Hbal.
  rewrite end_of_scope_eq, Ha.
  rewrite (pending_lookup _ _ _ Ha) in Hbal.
  pose proof (Hwf a c Ha) as Hc. destruct c as [st [|]]; simpl in *.
  - destruct st as [v|]; [|destruct Hc as [Hc _]; by destruct (Hc eq_refl)].
    eexists; split; [reflexivity|]. split; [|reflexivity]. split; [solve_wf|].
    count_events. lia.
  - eexists; split; [reflexivity|]. split; [|reflexivity]. split; [solve_wf|].
    count_events. lia.
Qed.

Lemma end_of_scopes_keeps_inv checked (l : list nat) s :
  inv s -> NoDup l -> (forall a, a ∈ l -> is_Some (heap s !! a)) ->
  exists s', end_of_scopes checked l s = (Return tt, s') /\
             inv s' /\ forall a, heap s' !! a = if decide (a ∈ l) then None else heap s !! a.
Proof.
  revert s. induction l as [|b l IH]; intros s Hinv Hnd Hl; simpl.
  - exists s. split; [done|]. split; [done|]. intros a.
    destruct (decide (a ∈ [])) as [Hin|]; [|done]. by apply elem_of_nil in Hin.
  - apply NoDup_cons in Hnd as [Hb Hnd].
    destruct (end_of_scope_keeps_inv checked b s Hinv) as (s1 & Hs1 & Hinv1 & Hheap1).
    { apply Hl. left. }
    destruct (IH s1 Hinv1 Hnd) as (s2 & Hs2 & Hinv2 & Hheap2).
    { intros a Ha. rewrite Hheap1, lookup_delete_ne; [apply Hl; by right|].
      intros ->. done. }
    exists s2. unfold bind. rewrite Hs1. split; [done|]. split; [done|].
    intros a. rewrite Hheap2, Hheap1.
    destruct (decide (a ∈ l)) as [Hin|Hnin].
    + rewrite decide_True; [done|by right].
    + destruct (decide (a = b)) as [->|Hne].
      * rewrite decide_True by left. apply lookup_delete_eq.
      * rewrite decide_False; [by apply lookup_delete_ne|].
        intros [?|?]%elem_of_cons; done.
Qed.

Lemma destroy_all_balanced checked s :
  inv s ->
  exists s', destroy_all checked s = (Return tt, s') /\ heap s' = ∅ /\
             constructions (trace s') = destructions (trace s').
Proof.
  intros Hinv. unfold destroy_all.
  destruct (end_of_scopes_keeps_inv checked (map fst (map_to_list (heap s))) s Hinv)
    as (s' & Hs' & [_ Hbal] & Hheap).
  { apply NoDup_fst_map_to_list. }
  { intros a [[a' c] [-> Hin]]%list_elem_of_fmap. simpl.
    apply elem_of_map_to_list in Hin. eauto. }
  assert (heap s' = ∅) as Hempty.
  { apply map_empty. intros a. rewrite Hheap.
    destruct (decide (a ∈ map fst (map_to_list (heap s)))) as [|Hnin]; [done|].
    destruct (heap s !! a) as [c|] eqn:Ha; [|done].
    exfalso. apply Hnin. apply list_elem_of_fmap. exists (a, c). split; [done|].
    by apply elem_of_map_to_list. }
  exists s'. split; [done|]. split; [done|].
  unfold balanced in Hbal. rewrite Hempty, pending_empty in Hbal. lia.
Qed.

Lemma inv_initial : inv (@initial T).
Proof.
  split; [intros a c; simpl; by rewrite lookup_empty|].
  unfold balanced. simpl. by rewrite pending_empty.
Qed.

End Facts.

(** * The specification, claim by claim *)

Section Claims.

Context {T : Type} `{VT : ValueType T}.

Implicit Types (checked : bool) (s : @state T) (this other : nat).
Implicit Types (c : @deferred_construction T) (k : ref_kind).

(** C1.  Once [has_value()] is true it stays true: whatever statements
    a client runs, in either build, as long as the cell itself is not
    destroyed, the cell is still there and still reports a value. *)
Theorem initialized_stays_initialized checked (ops : list op) this s :
  has_value this s = (Return true, s) ->
  Forall (fun o => o <> Destroy this) ops ->
  has_value this (snd (run checked ops s)) = (Return true, snd (run checked ops s)).
Proof. intros Hs Hops. by apply run_keeps_filled. Qed.

(** C2.  When [emplace(args)] returns on an empty cell, [has_value()]
    is true, [T(args)] built directly gives some [v], and each of the
    four accessors hands out a reference through which one reads
    [v]. *)
Theorem emplace_fills_cell checked this (x : args) s s' :
  has_value this s = (Return false, s) ->
  emplace checked this x s = (Return tt, s') ->
  has_value this s' = (Return true, s') /\
  exists v, construct x = inr v /\
    forall k, exists r, value checked k this s' = (Return r, s') /\
                        read r s' = (Return v, s').
Proof.
  rewrite has_value_eq, emplace_eq.
  destruct (heap s !! this) as [[st i]|]; [|done]. simpl.
  intros [= ->]. rewrite andb_false_r.
  destruct (construct x) as [e|v]; [done|]. intros [= <-].
  split.
  - rewrite has_value_eq. simpl. by rewrite lookup_insert_eq.
  - exists v. split; [done|]. intros k. eexists. split.
    + rewrite value_eq. simpl. rewrite lookup_insert_eq. simpl.
      by rewrite andb_false_r.
    + rewrite read_eq. simpl. by rewrite lookup_insert_eq.
Qed.

(** C3.  When the chosen constructor throws during [emplace] on an
    empty cell, that exception is what [emplace] exits with, the cell
    still reports no value, its storage holds nothing, and no call into
    [T] was recorded for the attempt, so no destructor ran. *)
Theorem emplace_failure_leaves_empty checked this (x : args) (e : exn) s :
  has_value this s = (Return false, s) ->
  construct x = inl e ->
  exists s', emplace checked this x s = (Throw e, s') /\
             has_value this s' = (Return false, s') /\
             heap s' !! this = Some (mk_cell None false) /\
             trace s' = trace s.
Proof.
  rewrite has_value_eq, emplace_eq.
  destruct (heap s !! this) as [[st i]|]; [|done]. simpl.
  intros [= ->] ->. rewrite andb_false_r.
  eexists. split; [reflexivity|]. rewrite has_value_eq. simpl.
  by rewrite lookup_insert_eq.
Qed.

(** C4.  In a checked build [emplace] on a filled cell ends in the
    assertion handler, and the state is the one before the call: no
    constructor was called, the stored value and the flag are
    untouched. *)
Theorem emplace_twice_asserts checked this (x : args) s :
  checked = true ->
  has_value this s = (Return true, s) ->
  emplace checked this x s = (Abort, s).
Proof.
  intros ->. rewrite has_value_eq, emplace_eq.
  destruct (heap s !! this) as [[st i]|]; [|done]. simpl.
  by intros [= ->].
Qed.

(** C5.  The four accessors.  On a filled cell each returns its kind
    of reference to the cell's storage, leaves the state alone, and the
    same stored value is read through all four.  On an empty cell, in a
    checked build each ends in the assertion handler, and in no build
    does one return a reference that can be read. *)
Theorem value_access_modes checked this s c :
  heap s !! this = Some c -> wf_cell c ->
  (initialized_ c = true ->
     exists v, storage_ c = Some v /\
       forall k, value checked k this s = (Return (mk_ref k (mk_pointer this)), s) /\
                 read (mk_ref k (mk_pointer this)) s = (Return v, s)) /\
  (initialized_ c = false ->
     forall k,
       (checked = true -> value checked k this s = (Abort, s)) /\
       (forall r s', value checked k this s = (Return r, s') ->
                     read r s' = (Undefined, s'))).
Proof.
  intros Hthis Hwf. split.
  - intros Hi. destruct Hwf as [Hwf _]. destruct (Hwf Hi) as [v Hv].
    exists v. split; [done|]. intros k. rewrite value_eq, read_eq. simpl.
    rewrite Hthis, Hi, Hv. by rewrite andb_false_r.
  - intros Hi k. split.
    + intros ->. by rewrite value_eq, Hthis, Hi.
    + intros r s'. rewrite value_eq, Hthis, Hi. rewrite andb_true_r.
      destruct checked; [done|]. intros [= <- <-]. rewrite read_eq. simpl.
      rewrite Hthis. destruct (storage_ c) as [v|] eqn:Hv; [|done].
      destruct Hwf as [_ Hwf]. rewrite Hwf in Hi by eauto. done.
Qed.

(** C6.  Copy construction from an empty cell gives an empty cell.
    From a filled cell, when [T]'s copy constructor completes, it gives
    a filled cell holding the copy, which is equal to the source's
    value for a [T] whose copy constructor makes equal copies.  The
    source is as it was. *)
Theorem copy_fidelity checked this other s c :
  heap s !! this = None -> heap s !! other = Some c ->
  (forall v v', copy_construct v = inr v' -> v' = v) ->
  (initialized_ c = false ->
     exists s', exec checked (DeclareCopy this other) s = (Return tt, s') /\
                has_value this s' = (Return false, s') /\
                heap s' !! other = Some c) /\
  (forall v v', initialized_ c = true -> storage_ c = Some v ->
     copy_construct v = inr v' ->
     exists s', exec checked (DeclareCopy this other) s = (Return tt, s') /\
                has_value this s' = (Return true, s') /\
                heap s' !! this = Some (mk_cell (Some v) true) /\
                heap s' !! other = Some c).
Proof.
  intros Hthis Hother Hcopy.
  assert (this <> other) by congruence.
  simpl exec. rewrite declare_copy_eq, Hthis, Hother. split.
  - intros ->. eexists. split; [reflexivity|]. rewrite has_value_eq. simpl.
    rewrite lookup_insert_eq, lookup_insert_ne by done. done.
  - intros v v' -> -> Hv. rewrite Hv. apply Hcopy in Hv as ->.
    eexists. split; [reflexivity|]. rewrite has_value_eq. simpl.
    rewrite lookup_insert_eq, lookup_insert_ne by done. done.
Qed.

(** C7, as the code has it.  When [T]'s copy constructor throws, the
    cell's copy constructor exits with that same exception, having
    already set the new object's flag while its storage holds nothing;
    the object is abandoned, and after the declaration the program
    state is exactly the one before it: there is no new cell, the
    source is unchanged and no call into [T] was recorded. *)
Theorem copy_failure_abandons_cell checked this other s c (v : T) (e : exn) :
  heap s !! this = None -> heap s !! other = Some c ->
  initialized_ c = true -> storage_ c = Some v ->
  copy_construct v = inl e ->
  copy_ctor checked this other s =
    (Throw e, mk_state (<[this := mk_cell None true]> (heap s)) (trace s)) /\
  exec checked (DeclareCopy this other) s = (Throw e, s).
Proof.
  intros Hthis Hother Hi Hv He. split.
  - by rewrite copy_ctor_eq, Hother, Hi, Hv, He.
  - simpl exec. by rewrite declare_copy_eq, Hthis, Hother, Hi, Hv, He.
Qed.

(** C8.  Move construction from an empty cell gives an empty cell.
    From a filled cell, when [T]'s move constructor completes with
    [v'], it gives a filled cell holding [v'], and the source still
    reports a value: it holds what the move left behind. *)
Theorem move_fidelity checked this other s c :
  heap s !! this = None -> heap s !! other = Some c ->
  (initialized_ c = false ->
     exists s', exec checked (DeclareMove this other) s = (Return tt, s') /\
                has_value this s' = (Return false, s') /\
                heap s' !! other = Some c) /\
  (forall v v', initialized_ c = true -> storage_ c = Some v ->
     fst (move_construct v) = inr v' ->
     exists s', exec checked (DeclareMove this other) s = (Return tt, s') /\
                has_value this s' = (Return true, s') /\
                heap s' !! this = Some (mk_cell (Some v') true) /\
                has_value other s' = (Return true, s') /\
                heap s' !! other = Some (mk_cell (Some (snd (move_construct v))) true)).
Proof.
  intros Hthis Hother.
  assert (this <> other) by congruence.
  assert (other <> this) by congruence.
  simpl exec. rewrite declare_move_eq, Hthis, Hother. split.
  - intros ->. eexists. split; [reflexivity|]. rewrite has_value_eq. simpl.
    rewrite lookup_insert_eq, lookup_insert_ne by done. done.
  - intros v v' -> -> Hv. simpl. rewrite Hv.
    eexists. split; [reflexivity|]. rewrite !has_value_eq. simpl.
    rewrite lookup_insert_eq, lookup_insert_ne, lookup_insert_eq by done. done.
Qed.

(** C9, as the code has it.  Leaving the scope of a filled cell calls
    [T]'s destructor once, on the stored value; leaving the scope of an
    empty cell calls nothing.  And for every program that a checked
    build runs to its end, that is, in which no precondition of
    [emplace] or [value] is violated: in either build the program ends
    in the same state, and once every remaining cell has gone out of
    scope, as many [T]s have been destroyed as were constructed. *)
Theorem construction_destruction_balance checked :
  (forall this s c (v : T),
     heap s !! this = Some c -> initialized_ c = true -> storage_ c = Some v ->
     end_of_scope checked this s =
       (Return tt, mk_state (delete this (heap s)) (trace s ++ [Destroyed v]))) /\
  (forall this s c,
     heap s !! this = Some c -> initialized_ c = false ->
     end_of_scope checked this s =
       (Return tt, mk_state (delete this (heap s)) (trace s))) /\
  (forall (ops : list op) s,
     run true ops initial = (Return tt, s) ->
     run checked ops initial = (Return tt, s) /\
     exists s', destroy_all checked s = (Return tt, s') /\
                heap s' = ∅ /\
                constructions (trace s') = destructions (trace s')).
Proof.
  split; [|split].
  - intros this s c v Hthis Hi Hv. by rewrite end_of_scope_eq, Hthis, Hi, Hv.
  - intros this s c Hthis Hi. by rewrite end_of_scope_eq, Hthis, Hi.
  - intros ops s Hrun. split; [by apply run_unchecked|].
    apply destroy_all_balanced. eapply run_keeps_inv; [|done]. apply inv_initial.
Qed.

(** C10.  [operator bool] is [has_value()], and on a live cell both
    return the flag and leave the state as it was. *)
Theorem operator_bool_is_has_value this s c :
  heap s !! this = Some c ->
  operator_bool this s = has_value this s /\
  has_value this s = (Return (initialized_ c), s) /\
  operator_bool this s = (Return (initialized_ c), s).
Proof.
  intros Hthis. unfold operator_bool. rewrite has_value_eq, Hthis. done.
Qed.

End Claims.

(** * The claims on [Point] *)

Section PointRuns.

Import PointType.

Local Open Scope Z_scope.

(** The scenario of the specification: an empty cell, [emplace(3, 4)],
    the value is [Point{3, 4}]; a second [emplace(5, 6)] is rejected
    and the value is still [Point{3, 4}]. *)
Example point_scenario :
  exec true (DeclareDefault 0%nat) initial = (Return tt, point_empty) /\
  has_value 0%nat point_empty = (Return false, point_empty) /\
  emplace true 0%nat (3, 4) point_empty = (Return tt, point_filled) /\
  has_value 0%nat point_filled = (Return true, point_filled) /\
  bind (value_lvalue true 0%nat) read point_filled = (Return (mk_point 3 4), point_filled) /\
  emplace true 0%nat (5, 6) point_filled = (Abort, point_filled).
Proof. repeat split; reflexivity. Qed.

Lemma initialized_stays_initialized_witness :
  has_value 0%nat
    (snd (run true [DeclareCopy 1%nat 0%nat; DeclareMove 2%nat 0%nat;
                    Value rvalue_ref 0%nat; Destroy 1%nat; HasValue 0%nat]
              point_filled)) =
  (Return true,
   snd (run true [DeclareCopy 1%nat 0%nat; DeclareMove 2%nat 0%nat;
                  Value rvalue_ref 0%nat; Destroy 1%nat; HasValue 0%nat]
            point_filled)).
Proof.
  apply initialized_stays_initialized.
  - reflexivity.
  - repeat constructor; discriminate.
Defined.

Lemma emplace_fills_cell_witness :
  has_value 0%nat point_filled = (Return true, point_filled) /\
  exists v, construct (3, 4) = inr v /\
    forall k, exists r, value true k 0%nat point_filled = (Return r, point_filled) /\
                        read r point_filled = (Return v, point_filled).
Proof.
  apply (emplace_fills_cell (VT:=point_value_type) true 0%nat (3, 4) point_empty point_filled);
    reflexivity.
Defined.

Lemma emplace_failure_leaves_empty_witness :
  exists s', emplace true 0%nat (-1, 2) point_empty = (Throw "negative"%string, s') /\
             has_value 0%nat s' = (Return false, s') /\
             heap s' !! 0%nat = Some (mk_cell None false) /\
             trace s' = trace point_empty.
Proof.
  apply (emplace_failure_leaves_empty (VT:=point_value_type) true 0%nat (-1, 2));
    reflexivity.
Defined.

Lemma emplace_twice_asserts_witness :
  emplace true 0%nat (5, 6) point_filled = (Abort, point_filled).
Proof.
  apply (emplace_twice_asserts (VT:=point_value_type) true 0%nat (5, 6)); reflexivity.
Defined.

Lemma wf_point_filled (p : Point) : wf_cell (mk_cell (Some p) true).
Proof. split; [intros _; eexists; reflexivity | reflexivity]. Defined.

Lemma wf_point_empty : wf_cell (mk_cell (None : option Point) false).
Proof. split; [discriminate | intros [? ?]; discriminate]. Defined.

Lemma value_access_modes_witness :
  (exists v, Some (mk_point 3 4) = Some v /\
     forall k,
       value true k 0%nat point_filled = (Return (mk_ref k (mk_pointer 0)), point_filled) /\
       read (mk_ref k (mk_pointer 0)) point_filled = (Return v, point_filled)) /\
  (forall k, value true k 0%nat point_empty = (Abort, point_empty)).
Proof.
  split.
  - apply (value_access_modes true 0%nat point_filled
             (mk_cell (Some (mk_point 3 4)) true) eq_refl (wf_point_filled _)).
    reflexivity.
  - intros k.
    apply (value_access_modes true 0%nat point_empty
             (mk_cell None false) eq_refl wf_point_empty); reflexivity.
Defined.

Lemma point_copy_equal (v v' : Point) : copy_construct v = inr v' -> v' = v.
Proof.
  simpl. unfold point_copy. destruct (py v =? 13); [discriminate|].
  intros H. injection H as <-. reflexivity.
Defined.

Lemma copy_fidelity_witness :
  (exists s', exec true (DeclareCopy 1%nat 0%nat) point_empty = (Return tt, s') /\
              has_value 1%nat s' = (Return false, s') /\
              heap s' !! 0%nat = Some (mk_cell None false)) /\
  (exists s', exec true (DeclareCopy 1%nat 0%nat) point_filled = (Return tt, s') /\
              has_value 1%nat s' = (Return true, s') /\
              heap s' !! 1%nat = Some (mk_cell (Some (mk_point 3 4)) true) /\
              heap s' !! 0%nat = Some (mk_cell (Some (mk_point 3 4)) true)).
Proof.
  split.
  - apply (copy_fidelity true 1%nat 0%nat point_empty (mk_cell None false)
             eq_refl eq_refl point_copy_equal).
    reflexivity.
  - destruct (copy_fidelity true 1%nat 0%nat point_filled
                (mk_cell (Some (mk_point 3 4)) true) eq_refl eq_refl point_copy_equal)
      as [_ Hfilled].
    apply (Hfilled (mk_point 3 4) (mk_point 3 4)); reflexivity.
Defined.

Lemma copy_failure_abandons_cell_witness :
  copy_ctor true 1%nat 0%nat point_unlucky =
    (Throw "unlucky"%string,
     mk_state (<[1%nat := mk_cell None true]> (heap point_unlucky)) (trace point_unlucky)) /\
  exec true (DeclareCopy 1%nat 0%nat) point_unlucky = (Throw "unlucky"%string, point_unlucky).
Proof.
  apply (copy_failure_abandons_cell true 1%nat 0%nat point_unlucky
           (mk_cell (Some (mk_point 1 13)) true) (mk_point 1 13)); reflexivity.
Defined.

(** C7 as stated fails: [Point{1, 13}] cannot be copied, and when the
    exception leaves the cell's copy constructor the object under
    construction has its flag set, so [has_value()] on it reads [true],
    not [false]. *)
Lemma copy_failure_flag_is_set :
  exists (e : string) (s' : @state Point),
    copy_ctor true 1%nat 0%nat point_unlucky = (Throw e, s') /\
    has_value 1%nat s' = (Return true, s') /\
    has_value 1%nat s' <> (Return false, s').
Proof.
  exists "unlucky"%string.
  exists (mk_state (<[1%nat := mk_cell None true]> (heap point_unlucky))
                   (trace point_unlucky)).
  split; [reflexivity|]. split; [reflexivity|]. discriminate.
Qed.

Lemma move_fidelity_witness :
  (exists s', exec true (DeclareMove 1%nat 0%nat) point_empty = (Return tt, s') /\
              has_value 1%nat s' = (Return false, s') /\
              heap s' !! 0%nat = Some (mk_cell None false)) /\
  (exists s', exec true (DeclareMove 1%nat 0%nat) point_filled = (Return tt, s') /\
              has_value 1%nat s' = (Return true, s') /\
              heap s' !! 1%nat = Some (mk_cell (Some (mk_point 3 4)) true) /\
              has_value 0%nat s' = (Return true, s') /\
              heap s' !! 0%nat = Some (mk_cell (Some (mk_point 0 0)) true)).
Proof.
  split.
  - apply (move_fidelity true 1%nat 0%nat point_empty (mk_cell None false)
             eq_refl eq_refl).
    reflexivity.
  - destruct (move_fidelity true 1%nat 0%nat point_filled
                (mk_cell (Some (mk_point 3 4)) true) eq_refl eq_refl) as [_ Hfilled].
    apply (Hfilled (mk_point 3 4) (mk_point 3 4)); reflexivity.
Defined.

Lemma construction_destruction_balance_witness :
  end_of_scope true 0%nat point_filled =
    (Return tt, mk_state (delete 0%nat (heap point_filled))
                         (trace point_filled ++ [Destroyed (mk_point 3 4)])) /\
  end_of_scope true 0%nat point_empty =
    (Return tt, mk_state (delete 0%nat (heap point_empty)) (trace point_empty)) /\
  exists s', destroy_all false (snd (run true point_program initial)) = (Return tt, s') /\
             heap s' = ∅ /\
             constructions (trace s') = destructions (trace s').
Proof.
  split; [|split].
  - destruct (construction_destruction_balance (VT:=point_value_type) true)
      as [Hfilled _].
    apply (Hfilled 0%nat point_filled (mk_cell (Some (mk_point 3 4)) true));
      reflexivity.
  - destruct (construction_destruction_balance (VT:=point_value_type) true)
      as (_ & Hempty & _).
    apply (Hempty 0%nat point_empty (mk_cell None false)); reflexivity.
  - destruct (construction_destruction_balance (VT:=point_value_type) false)
      as (_ & _ & Hrun).
    apply (Hrun point_program). reflexivity.
Defined.

(** C9 as stated fails on a program that fills a cell twice.  With the
    assertions compiled out the second [emplace] builds a new [Point]
    over the first, which is never destroyed: two constructions, one
    destruction.  With the assertions in, the run ends in the handler
    with one [Point] constructed and none destroyed. *)
Lemma double_emplace_unbalanced :
  (exists s s' : @state Point,
     run false double_emplace initial = (Return tt, s) /\
     destroy_all false s = (Return tt, s') /\
     heap s' = ∅ /\
     constructions (trace s') = 2%nat /\ destructions (trace s') = 1%nat) /\
  (exists s : @state Point,
     run true double_emplace initial = (Abort, s) /\
     constructions (trace s) = 1%nat /\ destructions (trace s) = 0%nat).
Proof.
  split.
  - exists (mk_state {[0%nat := mk_cell (Some (mk_point 5 6)) true]}
                     [Constructed (mk_point 3 4); Constructed (mk_point 5 6)]).
    exists (mk_state ∅ [Constructed (mk_point 3 4); Constructed (mk_point 5 6);
                        Destroyed (mk_point 5 6)]).
    repeat split; reflexivity.
  - exists point_filled. repeat split; reflexivity.
Qed.

Lemma operator_bool_is_has_value_witness :
  operator_bool 0%nat point_filled = has_value 0%nat point_filled /\
  has_value 0%nat point_filled = (Return true, point_filled) /\
  operator_bool 0%nat point_filled = (Return true, point_filled).
Proof.
  apply (operator_bool_is_has_value 0%nat point_filled
           (mk_cell (Some (mk_point 3 4)) true)).
  reflexivity.
Defined.

End PointRuns.

(** * Further properties of the code *)

Section Lifecycle.

Context {T : Type} `{VT : ValueType T}.

Implicit Types (checked : bool) (s : @state T) (this other a : nat).
Implicit Types (c : @deferred_construction T) (k : ref_kind).

Lemma exec_stop_unchanged (o : op) s r s' :
  wf_heap (heap s) -> exec true o s = (r, s') ->
  r = Abort \/ r = Undefined -> s' = s.
Proof.
  intros Hwf.
  destruct o as [b|b src|b src|b x|b u|b|b|k b|b].
  - simpl exec. rewrite declare_default_eq.
    destruct (heap s !! b); intros [= <- <-]; [done|]. by intros [?|?].
  - simpl exec. rewrite declare_copy_eq.
    destruct (heap s !! b); [by intros [= <- <-]|].
    destruct (heap s !! src) as [[[v|] [|]]|] eqn:Hsrc; simpl.
    + destruct (copy_construct v); intros [= <- <-]; by intros [?|?].
    + intros [= <- <-]; by intros [?|?].
    + destruct (Hwf _ _ Hsrc) as [Hc _]. by destruct (Hc eq_refl).
    + intros [= <- <-]; by intros [?|?].
    + by intros [= <- <-].
  - simpl exec. rewrite declare_move_eq.
    destruct (heap s !! b); [by intros [= <- <-]|].
    destruct (heap s !! src) as [[[v|] [|]]|] eqn:Hsrc; simpl.
    + destruct (move_construct v) as [[e|v'] vf]; intros [= <- <-]; by intros [?|?].
    + intros [= <- <-]; by intros [?|?].
    + destruct (Hwf _ _ Hsrc) as [Hc _]. by destruct (Hc eq_refl).
    + intros [= <- <-]; by intros [?|?].
    + by intros [= <- <-].
  - simpl exec. rewrite emplace_eq.
    destruct (heap s !! b) as [[st [|]]|]; simpl; try (by intros [= <- <-]).
    destruct (construct x); intros [= <- <-]; by intros [?|?].
  - rewrite exec_assign_eq, emplace_eq.
    destruct (heap s !! b) as [[st [|]]|]; simpl; try (by intros [= <- <-]).
    destruct (construct (forward_one u)); intros [= <- <-]; by intros [?|?].
  - rewrite exec_has_value_eq. by destruct (heap s !! b); intros [= <- <-].
  - rewrite exec_to_bool_eq, exec_has_value_eq.
    by destruct (heap s !! b); intros [= <- <-].
  - rewrite exec_value_eq. destruct (heap s !! b) as [cb|]; [|by intros [= <- <-]].
    by destruct (true && negb (initialized_ cb)); intros [= <- <-].
  - simpl exec. rewrite end_of_scope_eq.
    destruct (heap s !! b) as [[[v|] [|]]|] eqn:Hb; simpl;
      try (by intros [= <- <-]); intros [= <- <-]; by intros [?|?].
Qed.

Lemma exec_keeps_inv_always (o : op) s :
  inv s -> inv (snd (exec true o s)).
Proof.
  intros Hinv. destruct (exec true o s) as [r s'] eqn:Hexec. simpl.
  destruct r as [[]|e| |].
  - eapply exec_keeps_inv; eauto; done.
  - eapply exec_keeps_inv; eauto; done.
  - rewrite (exec_stop_unchanged o s _ s' (proj1 Hinv) Hexec); auto.
  - rewrite (exec_stop_unchanged o s _ s' (proj1 Hinv) Hexec); auto.
Qed.

Lemma run_keeps_inv_always (ops : list op) s :
  inv s -> inv (snd (run true ops s)).
Proof.
  revert s. induction ops as [|o ops IH]; intros s Hinv; [done|].
  simpl. pose proof (exec_keeps_inv_always o s Hinv) as Hstep.
  destruct (exec true o s) as [[[]|e| |] s1]; simpl in *; auto.
Qed.

(** X1.  A cell that is declared and goes out of scope without having
    been filled: after the declaration [has_value()] is false, and the
    two statements together leave the program state as it was; no
    constructor and no destructor of [T] ran. *)
Theorem empty_cell_lifecycle checked a s :
  heap s !! a = None ->
  exists s1, exec checked (DeclareDefault a) s = (Return tt, s1) /\
             has_value a s1 = (Return false, s1) /\
             trace s1 = trace s /\
             exec checked (Destroy a) s1 = (Return tt, s).
Proof.
  intros Ha. simpl exec. rewrite declare_default_eq, Ha.
  eexists. split; [reflexivity|]. rewrite has_value_eq, end_of_scope_eq. simpl.
  rewrite lookup_insert_eq. simpl.
  by rewrite delete_insert_eq, delete_id, state_eta.
Qed.

(** X2.  A cell that is declared, filled by [emplace(x)] and goes out
    of scope: the store is as before, and the calls into [T] are the
    construction of [T(x)] followed by the destruction of that same
    value, nothing else. *)
Theorem filled_cell_lifecycle checked a (x : args) (v : T) s :
  heap s !! a = None ->
  construct x = inr v ->
  run checked [DeclareDefault a; Emplace a x; Destroy a] s =
    (Return tt, mk_state (heap s) (trace s ++ [Constructed v; Destroyed v])).
Proof.
  intros Ha Hx. simpl run. simpl exec.
  rewrite declare_default_eq, Ha, emplace_eq. simpl.
  rewrite lookup_insert_eq. simpl. rewrite andb_false_r, Hx, end_of_scope_eq. simpl.
  rewrite lookup_insert_eq. simpl.
  rewrite insert_insert_eq, delete_insert_eq, delete_id by done.
  by rewrite <- app_assoc.
Qed.

End Lifecycle.

Section Further.

Context {T : Type} `{VT : ValueType T}.

Implicit Types (checked : bool) (s : @state T) (this other a : nat).
Implicit Types (c : @deferred_construction T) (k : ref_kind).

(** X3.  [operator=(U&&)] fills a cell once and is no assignment.  On
    an empty cell it constructs [T(u)], returns the cell itself, and a
    throwing constructor leaves the cell empty; on a filled cell a
    checked build ends in the assertion handler with nothing changed. *)
Theorem assign_fills_once checked this (u : conv) s :
  (forall v, has_value this s = (Return false, s) ->
     construct (forward_one u) = inr v ->
     exists s', operator_assign checked this u s = (Return this, s') /\
                heap s' !! this = Some (mk_cell (Some v) true) /\
                trace s' = trace s ++ [Constructed v]) /\
  (forall e, has_value this s = (Return false, s) ->
     construct (forward_one u) = inl e ->
     exists s', operator_assign checked this u s = (Throw e, s') /\
                has_value this s' = (Return false, s') /\
                trace s' = trace s) /\
  (has_value this s = (Return true, s) ->
     operator_assign true this u s = (Abort, s)).
Proof.
  unfold operator_assign, bind. rewrite !emplace_eq, has_value_eq.
  destruct (heap s !! this) as [[st i]|]; simpl.
  - split; [|split].
    + intros v [= ->] ->. rewrite andb_false_r. eexists. split; [reflexivity|].
      simpl. by rewrite lookup_insert_eq.
    + intros e [= ->] ->. rewrite andb_false_r. eexists. split; [reflexivity|].
      rewrite has_value_eq. simpl. by rewrite lookup_insert_eq.
    + by intros [= ->].
  - split; [|split]; intros; done.
Qed.

(** X4.  With the assertions compiled out, [emplace] on a filled cell
    builds the new value over the old one without destroying it: when
    the cell later goes out of scope only the new value is destroyed,
    the destructor never runs for the old one. *)
Theorem unchecked_emplace_overwrites this (x : args) (v v' : T) s :
  heap s !! this = Some (mk_cell (Some v) true) ->
  construct x = inr v' ->
  run false [Emplace this x; Destroy this] s =
    (Return tt,
     mk_state (delete this (heap s)) (trace s ++ [Constructed v'; Destroyed v'])).
Proof.
  intros Hthis Hx. simpl run. simpl exec. rewrite emplace_eq, Hthis. simpl.
  rewrite Hx, end_of_scope_eq. simpl. rewrite lookup_insert_eq. simpl.
  by rewrite delete_insert_eq, <- app_assoc.
Qed.

(** X5.  The assertions only check.  A program that a checked build
    runs without an assertion firing, from any state and whatever way
    the run ends otherwise, runs the same way and ends in the same state
    in a build without them. *)
Theorem assertions_only_check checked (ops : list op) s r s' :
  run true ops s = (r, s') -> r <> Abort -> run checked ops s = (r, s').
Proof.
  revert s. induction ops as [|o ops IH]; intros s; simpl; [done|].
  destruct (exec true o s) as [r1 s1] eqn:Hexec.
  destruct r1 as [[]|e| |].
  - rewrite (exec_unchecked checked _ _ _ _ Hexec) by done. apply IH.
  - rewrite (exec_unchecked checked _ _ _ _ Hexec) by done. apply IH.
  - by intros [= <- <-].
  - rewrite (exec_unchecked checked _ _ _ _ Hexec) by done. done.
Qed.


(** X7.  When [T]'s move constructor throws, move construction exits
    with that exception and no new cell exists; the source still
    reports a value, namely what the move constructor left in it, and
    no completed call into [T] was recorded. *)
Theorem move_failure_keeps_source checked this other s c (v : T) (e : exn) :
  heap s !! this = None -> heap s !! other = Some c ->
  initialized_ c = true -> storage_ c = Some v ->
  fst (move_construct v) = inl e ->
  exists s', exec checked (DeclareMove this other) s = (Throw e, s') /\
             heap s' !! this = None /\
             has_value other s' = (Return true, s') /\
             heap s' !! other = Some (mk_cell (Some (snd (move_construct v))) true) /\
             trace s' = trace s.
Proof.
  intros Hthis Hother Hi Hv He.
  simpl exec. rewrite declare_move_eq, Hthis, Hother, Hi, Hv. simpl. rewrite He.
  eexists. split; [reflexivity|]. rewrite has_value_eq. simpl.
  rewrite lookup_insert_eq.
  rewrite lookup_insert_ne by congruence. done.
Qed.

(** X9.  The cell adds no failure of its own.  An exception leaving
    any statement is the one thrown by the constructor of [T] that the
    statement called: the chosen constructor for [emplace] and
    [operator=], the copy or move constructor applied to the source's
    value for a copy or a move.  The default constructor, the
    destructor, [has_value], [operator bool] and the four accessors
    never exit with an exception. *)
Theorem throw_comes_from_T checked (o : op) s (e : exn) s' :
  exec checked o s = (Throw e, s') -> thrown_by o s e.
Proof.
  destruct o as [b|b src|b src|b x|b u|b|b|k b|b]; simpl thrown_by.
  - simpl exec. rewrite declare_default_eq. by destruct (heap s !! b).
  - simpl exec. rewrite declare_copy_eq. destruct (heap s !! b); [done|].
    destruct (heap s !! src) as [[[v|] [|]]|]; simpl; try done.
    destruct (copy_construct v) eqn:Hv; [|done]. intros [= <- <-]. eauto.
  - simpl exec. rewrite declare_move_eq. destruct (heap s !! b); [done|].
    destruct (heap s !! src) as [[[v|] [|]]|]; simpl; try done.
    destruct (fst (move_construct v)) eqn:Hv; [|done]. intros [= <- <-]. eauto.
  - simpl exec. rewrite emplace_eq. destruct (heap s !! b) as [cb|]; [|done].
    destruct (checked && initialized_ cb); [done|].
    destruct (construct x); [|done]. by intros [= <- <-].
  - rewrite exec_assign_eq, emplace_eq. destruct (heap s !! b) as [cb|]; [|done].
    destruct (checked && initialized_ cb); [done|].
    destruct (construct (forward_one u)); [|done]. by intros [= <- <-].
  - rewrite exec_has_value_eq. by destruct (heap s !! b).
  - rewrite exec_to_bool_eq, exec_has_value_eq. by destruct (heap s !! b).
  - rewrite exec_value_eq. destruct (heap s !! b) as [cb|]; [|done].
    by destruct (checked && negb (initialized_ cb)).
  - simpl exec. rewrite end_of_scope_eq.
    by destruct (heap s !! b) as [[[v|] [|]]|].
Qed.

(** X8.  The conditional [noexcept] of the move constructor: for a [T]
    whose move constructor cannot throw, move construction of a cell
    never exits with an exception. *)
Theorem nothrow_move_construction checked this other s (e : exn) s' :
  (forall v : T, exists v', fst (move_construct v) = inr v') ->
  exec checked (DeclareMove this other) s <> (Throw e, s').
Proof.
  intros Hnothrow. simpl exec. rewrite declare_move_eq.
  destruct (heap s !! this); [done|].
  destruct (heap s !! other) as [[[v|] [|]]|]; simpl; try done.
  destruct (Hnothrow v) as [v' ->]. done.
Qed.

(** X10.  A failed [emplace] can be retried.  When the constructor
    throws on an empty cell and the client catches the exception, a
    second [emplace] on the same cell is within its precondition: it
    trips no assertion and fills the cell, and the only completed call
    into [T] is the second construction. *)
Theorem emplace_retry checked this (x y : args) (e : exn) (v : T) s :
  has_value this s = (Return false, s) ->
  construct x = inl e -> construct y = inr v ->
  exists s', run checked [Emplace this x; Emplace this y] s = (Return tt, s') /\
             heap s' !! this = Some (mk_cell (Some v) true) /\
             trace s' = trace s ++ [Constructed v].
Proof.
  rewrite has_value_eq. intros Hthis Hx Hy. simpl run. simpl exec.
  rewrite emplace_eq.
  destruct (heap s !! this) as [[st i]|]; [|done]. simpl in *.
  injection Hthis as ->. rewrite andb_false_r, Hx, emplace_eq. simpl.
  rewrite lookup_insert_eq. simpl. rewrite andb_false_r, Hy.
  eexists. split; [reflexivity|]. simpl. by rewrite lookup_insert_eq.
Qed.

(** X11.  Invariant I1 and the construction count hold wherever a
    checked build can get: however a program's run ends, by returning,
    in the assertion handler or at a use of a cell that is not there,
    every cell has its flag set exactly when a [T] lives in its
    storage, and the constructions so far are the destructions so far
    plus the cells that hold a value. *)
Theorem checked_build_invariant (ops : list op) :
  wf_heap (heap (snd (run true ops (@initial T)))) /\
  constructions (trace (snd (run true ops (@initial T)))) =
    destructions (trace (snd (run true ops (@initial T)))) +
    pending (heap (snd (run true ops (@initial T)))).
Proof.
  pose proof (run_keeps_inv_always ops _ inv_initial) as [Hwf Hbal].
  split; [exact Hwf|]. exact Hbal.
Qed.

(** X12.  In a checked build no accessor hands out a dangling
    reference: in any state a program can reach, a reference returned
    by any of the four forms of [value()] has a [T] behind it. *)
Theorem no_dangling_reference (ops : list op) k this (r : reference) s' :
  value true k this (snd (run true ops (@initial T))) = (Return r, s') ->
  exists v, read r s' = (Return v, s').
Proof.
  pose proof (run_keeps_inv_always ops _ inv_initial) as [Hwf _].
  rewrite value_eq, read_eq.
  destruct (heap _ !! this) as [[st i]|] eqn:Hthis; [|done].
  destruct i; simpl; [|done]. intros [= <- <-]. simpl. rewrite Hthis. simpl.
  destruct st as [v|]; [eauto|].
  destruct (Hwf _ _ Hthis) as [Hc _]. by destruct (Hc eq_refl).
Qed.

(** X13.  The assertions fail fast and only on a broken precondition.
    In a checked build a statement ends in the handler only if it is an
    [emplace] or [operator=] on a cell that has a value or a [value()]
    on a cell that has none, and then nothing has changed; the
    accessor calls inside the copy constructor, the move constructor and
    the destructor never trip theirs.  With the assertions compiled out
    no statement ends in the handler. *)
Theorem abort_means_violation (o : op) s s' :
  (exec true o s = (Abort, s') -> s' = s /\ violates o s) /\
  exec false o s <> (Abort, s').
Proof.
  destruct o as [b|b src|b src|b x|b u|b|b|k b|b]; simpl violates.
  - simpl exec. rewrite !declare_default_eq. by destruct (heap s !! b).
  - simpl exec. rewrite !declare_copy_eq. destruct (heap s !! b); [done|].
    destruct (heap s !! src) as [[[v|] [|]]|]; simpl; try done.
    by destruct (copy_construct v).
  - simpl exec. rewrite !declare_move_eq. destruct (heap s !! b); [done|].
    destruct (heap s !! src) as [[[v|] [|]]|]; simpl; try done.
    by destruct (fst (move_construct v)).
  - simpl exec. rewrite !emplace_eq, has_value_eq.
    destruct (heap s !! b) as [[st [|]]|]; simpl; [| |done].
    + split; [by intros [= <-]|]. by destruct (construct x).
    + by destruct (construct x).
  - rewrite !exec_assign_eq, !emplace_eq, has_value_eq.
    destruct (heap s !! b) as [[st [|]]|]; simpl; [| |done].
    + split; [by intros [= <-]|]. by destruct (construct (forward_one u)).
    + by destruct (construct (forward_one u)).
  - rewrite !exec_has_value_eq. by destruct (heap s !! b).
  - rewrite !exec_to_bool_eq, !exec_has_value_eq. by destruct (heap s !! b).
  - rewrite !exec_value_eq, has_value_eq.
    destruct (heap s !! b) as [[st [|]]|]; simpl; [done| |done].
    split; [by intros [= <-]|done].
  - simpl exec. rewrite !end_of_scope_eq.
    by destruct (heap s !! b) as [[[v|] [|]]|].
Qed.

End Further.

(** * The further properties on [Point] and on counters *)

Section MoreRuns.

Import PointType.

Local Open Scope Z_scope.

Lemma empty_cell_lifecycle_witness :
  exists s1, exec true (DeclareDefault 1%nat) point_filled = (Return tt, s1) /\
             has_value 1%nat s1 = (Return false, s1) /\
             trace s1 = trace point_filled /\
             exec true (Destroy 1%nat) s1 = (Return tt, point_filled).
Proof. apply (empty_cell_lifecycle true 1%nat point_filled). reflexivity. Defined.

Lemma filled_cell_lifecycle_witness :
  run true [DeclareDefault 1%nat; Emplace 1%nat (5, 6); Destroy 1%nat] point_filled =
    (Return tt,
     mk_state (heap point_filled)
              (trace point_filled ++ [Constructed (mk_point 5 6); Destroyed (mk_point 5 6)])).
Proof.
  apply (filled_cell_lifecycle (VT:=point_value_type) true 1%nat (5, 6)); reflexivity.
Defined.

Lemma assign_fills_once_witness :
  (exists s', operator_assign true 0%nat 7 point_empty = (Return 0%nat, s') /\
              heap s' !! 0%nat = Some (mk_cell (Some (mk_point 7 7)) true) /\
              trace s' = trace point_empty ++ [Constructed (mk_point 7 7)]) /\
  (exists s', operator_assign true 0%nat (-7) point_empty = (Throw "negative"%string, s') /\
              has_value 0%nat s' = (Return false, s') /\
              trace s' = trace point_empty) /\
  operator_assign true 0%nat 7 point_filled = (Abort, point_filled).
Proof.
  split; [|split].
  - destruct (assign_fills_once (VT:=point_value_type) true 0%nat 7 point_empty)
      as [Hok _].
    apply (Hok (mk_point 7 7)); reflexivity.
  - destruct (assign_fills_once (VT:=point_value_type) true 0%nat (-7) point_empty)
      as (_ & Hthrow & _).
    apply Hthrow; reflexivity.
  - destruct (assign_fills_once (VT:=point_value_type) true 0%nat 7 point_filled)
      as (_ & _ & Hfilled).
    apply Hfilled. reflexivity.
Defined.

Lemma unchecked_emplace_overwrites_witness :
  run false [Emplace 0%nat (5, 6); Destroy 0%nat] point_filled =
    (Return tt,
     mk_state (delete 0%nat (heap point_filled))
              (trace point_filled ++ [Constructed (mk_point 5 6); Destroyed (mk_point 5 6)])).
Proof.
  apply (unchecked_emplace_overwrites (VT:=point_value_type) 0%nat (5, 6) (mk_point 3 4));
    reflexivity.
Defined.

Lemma assertions_only_check_witness :
  run false point_program initial =
    (Return tt, snd (run true point_program initial)).
Proof.
  apply (assertions_only_check false point_program initial); [reflexivity|discriminate].
Defined.


Lemma move_failure_keeps_source_witness :
  exists s',
    @exec nat CounterType.counter_value_type true (DeclareMove 1%nat 0%nat)
      CounterType.counter_zero =
      (@Throw nat CounterType.counter_value_type unit tt, s') /\
    heap s' !! 1%nat = None /\
    @has_value nat CounterType.counter_value_type 0%nat s' = (Return true, s') /\
    heap s' !! 0%nat = Some (mk_cell (Some 0%nat) true) /\
    trace s' = trace CounterType.counter_zero.
Proof.
  apply (move_failure_keeps_source (VT:=CounterType.counter_value_type) true 1%nat 0%nat
           CounterType.counter_zero (mk_cell (Some 0%nat) true) 0%nat tt); reflexivity.
Defined.

Lemma point_move_nothrow (v : Point) : exists v', fst (move_construct v) = inr v'.
Proof. exists v. reflexivity. Defined.

Lemma nothrow_move_construction_witness :
  exec true (DeclareMove 1%nat 0%nat) point_filled <> (Throw "moved"%string, point_filled).
Proof. apply nothrow_move_construction. exact point_move_nothrow. Defined.

Lemma throw_comes_from_T_witness :
  thrown_by (@Emplace Point point_value_type 0%nat (-1, 2)) point_empty "negative"%string.
Proof.
  apply (throw_comes_from_T true (@Emplace Point point_value_type 0%nat (-1, 2))
           point_empty "negative"%string point_empty).
  reflexivity.
Defined.

Lemma emplace_retry_witness :
  exists s', run true [Emplace 0%nat (-1, 2); Emplace 0%nat (3, 4)] point_empty =
               (Return tt, s') /\
             heap s' !! 0%nat = Some (mk_cell (Some (mk_point 3 4)) true) /\
             trace s' = trace point_empty ++ [Constructed (mk_point 3 4)].
Proof.
  apply (emplace_retry (VT:=point_value_type) true 0%nat (-1, 2) (3, 4)
           "negative"%string (mk_point 3 4)); reflexivity.
Defined.

Lemma no_dangling_reference_witness :
  exists v, read (mk_ref rvalue_ref (mk_pointer 2))
                 (snd (run true point_program initial)) =
            (Return v, snd (run true point_program initial)).
Proof.
  apply (no_dangling_reference point_program rvalue_ref 2%nat). reflexivity.
Defined.

Lemma abort_means_violation_witness :
  point_filled = point_filled /\ violates (@Emplace Point point_value_type 0%nat (5, 6)) point_filled.
Proof.
  destruct (abort_means_violation (@Emplace Point point_value_type 0%nat (5, 6))
              point_filled point_filled) as [Habort _].
  apply Habort. reflexivity.
Defined.

End MoreRuns.
